(** * dd::slice_view and dd::non_propagating_cache

  A shallow embedding of [include/dd/non_propagating_cache.hpp],
  [include/dd/maybe_present.hpp], [include/dd/cached_iterator.hpp] and
  [include/dd/slice_view.hpp], and the properties of the position cache,
  of the storage elision and of the slice view's queries. *)

From stdpp Require Import base decidable option list gmap.
From Stdlib Require Import ZArith Lia.

(** ** non_propagating_cache.hpp

  The special members of [non_propagating_cache<T>] compare and mutate
  objects by address ([this != std::addressof(other)],
  [other.value_.reset()]), so cache objects live in a store indexed by
  address and every member takes the addresses of [*this] and [other]. *)
Module NonPropagatingCache.

(** Object addresses. *)
Definition addr := positive.

Section cache.
Context {T : Type}.

(** [std::optional<T> value_{};] is the only data member. *)
Record non_propagating_cache : Type := { value_ : option T }.

Abbreviation store := (gmap addr non_propagating_cache).

(** [value_.reset()] *)
Definition reset (c : non_propagating_cache) : non_propagating_cache :=
  {| value_ := None |}.

(** [non_propagating_cache() = default;] constructs [*this] with
    [value_{}]. *)
Definition default_ctor (this : addr) (σ : store) : store :=
  <[this := {| value_ := None |}]> σ.

(** [non_propagating_cache(non_propagating_cache const& other)]:
    [value_{std::nullopt}], [other] is unused. *)
Definition copy_ctor (this other : addr) (σ : store) : store :=
  <[this := {| value_ := None |}]> σ.

(** [non_propagating_cache(non_propagating_cache&& other)]:
    [value_{std::nullopt}], then [other.value_.reset()]. *)
Definition move_ctor (this other : addr) (σ : store) : store :=
  alter reset other (<[this := {| value_ := None |}]> σ).

(** [operator=(non_propagating_cache const& other)]:
    [if (this != std::addressof(other)) value_.reset();] *)
Definition copy_assign (this other : addr) (σ : store) : store :=
  if decide (this ≠ other) then alter reset this σ else σ.

(** [operator=(non_propagating_cache&& other)]:
    [value_.reset(); other.value_.reset();] *)
Definition move_assign (this other : addr) (σ : store) : store :=
  alter reset other (alter reset this σ).

(** [has_value()] and [operator bool()] *)
Definition has_value (c : non_propagating_cache) : bool :=
  match value_ c with Some _ => true | None => false end.

(** [value()] and [operator*]: [*self.value_]; dereferencing a
    disengaged optional is undefined, rendered as [None]. *)
Definition value (c : non_propagating_cache) : option T := value_ c.

(** [emplace(args...)]: [value_.emplace(args...)], where [v] is the
    [T] built from [args]; returns a reference to the new value. *)
Definition emplace (v : T) (c : non_propagating_cache) : T * non_propagating_cache :=
  (v, {| value_ := Some v |}).

(** The state of a cache that holds nothing. *)
Definition empty : non_propagating_cache := {| value_ := None |}.

End cache.

Arguments non_propagating_cache : clear implicits.

(** A store with a populated cache at address 1 and an empty one at 2. *)
Definition example_store : gmap addr (non_propagating_cache Z) :=
  <[2%positive := {| value_ := None |}]>
    (<[1%positive := {| value_ := Some 7%Z |}]> ∅).

(** *** Properties of the special members *)

Section cache_properties.
Context {T : Type}.

Abbreviation store := (gmap addr (non_propagating_cache T)).

Lemma alter_reset_lookup (σ : store) (a : addr) :
  is_Some (σ !! a) → alter reset a σ !! a = Some empty.
Proof.
  intros [c Hc]. rewrite lookup_alter_eq, Hc. reflexivity.
Qed.

Lemma alter_reset_other (σ : store) (a b : addr) :
  a ≠ b → alter reset a σ !! b = σ !! b.
Proof. intros Hne. by rewrite lookup_alter_ne. Qed.

Lemma has_value_empty : has_value (@empty T) = false.
Proof. reflexivity. Qed.

Lemma emplace_has_value (v : T) (c : non_propagating_cache T) :
  has_value (snd (emplace v c)) = true ∧ value (snd (emplace v c)) = Some v.
Proof. split; reflexivity. Qed.

(** Each special member touches [*this] and [other] only. *)
Lemma special_members_frame (σ : store) (this other a : addr) :
  a ≠ this → a ≠ other →
  copy_ctor this other σ !! a = σ !! a ∧
  move_ctor this other σ !! a = σ !! a ∧
  copy_assign this other σ !! a = σ !! a ∧
  move_assign this other σ !! a = σ !! a.
Proof.
  intros Hthis Hother. unfold copy_ctor, move_ctor, copy_assign, move_assign.
  repeat split.
  - by rewrite lookup_insert_ne.
  - by rewrite lookup_alter_ne, lookup_insert_ne.
  - case_decide; [by rewrite lookup_alter_ne | done].
  - by rewrite !lookup_alter_ne.
Qed.

Lemma copy_assign_self (σ : store) (a : addr) : copy_assign a a σ = σ.
Proof. unfold copy_assign. case_decide; [congruence | done]. Qed.

Lemma copy_assign_distinct (σ : store) (this other : addr) :
  this ≠ other → copy_assign this other σ = alter reset this σ.
Proof. intros Hne. unfold copy_assign. case_decide; [done | contradiction]. Qed.

Lemma move_assign_this (σ : store) (this other : addr) :
  is_Some (σ !! this) → move_assign this other σ !! this = Some empty.
Proof.
  intros Hthis. unfold move_assign.
  destruct (decide (other = this)) as [->|Hne].
  - apply alter_reset_lookup. rewrite alter_reset_lookup by done. by eexists.
  - rewrite alter_reset_other by done. by apply alter_reset_lookup.
Qed.

Lemma move_assign_other (σ : store) (this other : addr) :
  is_Some (σ !! other) → move_assign this other σ !! other = Some empty.
Proof.
  intros Hother. unfold move_assign. apply alter_reset_lookup.
  destruct (decide (this = other)) as [->|Hne].
  - rewrite alter_reset_lookup by done. by eexists.
  - by rewrite alter_reset_other.
Qed.

(** C5, as amended: copy-constructing a new cache from [other], or
    copy-assigning [other] to a distinct cache [dst], leaves the destination
    empty and [other] with the state and value it had; copy-assigning a cache
    to itself leaves the store as it was. *)
Theorem copy_resets_distinct_destination
  (σ : store) (other fresh dst : addr) (c d : non_propagating_cache T) :
  σ !! other = Some c →
  σ !! fresh = None →
  σ !! dst = Some d →
  dst ≠ other →
  copy_ctor fresh other σ !! fresh = Some empty ∧
  copy_ctor fresh other σ !! other = Some c ∧
  copy_assign dst other σ !! dst = Some empty ∧
  copy_assign dst other σ !! other = Some c ∧
  copy_assign other other σ = σ.
Proof.
  intros Hother Hfresh Hdst Hne.
  assert (fresh ≠ other) as Hnew by congruence.
  unfold copy_ctor. rewrite copy_assign_distinct by done.
  repeat split.
  - by rewrite lookup_insert_eq.
  - by rewrite lookup_insert_ne.
  - apply alter_reset_lookup. by eexists.
  - by rewrite alter_reset_other.
  - apply copy_assign_self.
Qed.

(** C6: move-constructing a new cache from [other], or move-assigning
    [other] to a cache [dst] (which may be [other] itself), leaves the
    destination empty and [other] empty. *)
Theorem move_resets_destination_and_source
  (σ : store) (other fresh dst : addr) (c d : non_propagating_cache T) :
  σ !! other = Some c →
  σ !! fresh = None →
  σ !! dst = Some d →
  move_ctor fresh other σ !! fresh = Some empty ∧
  move_ctor fresh other σ !! other = Some empty ∧
  move_assign dst other σ !! dst = Some empty ∧
  move_assign dst other σ !! other = Some empty.
Proof.
  intros Hother Hfresh Hdst.
  assert (fresh ≠ other) as Hnew by congruence.
  repeat split.
  - unfold move_ctor. rewrite alter_reset_other by done.
    by rewrite lookup_insert_eq.
  - unfold move_ctor. apply alter_reset_lookup.
    rewrite lookup_insert_ne by done. by eexists.
  - apply move_assign_this. by eexists.
  - apply move_assign_other. by eexists.
Qed.

(** C10: for a cache at [a] that holds [v], copy-assigning it to itself
    changes nothing (it still holds [v]), copy-assigning any distinct cache
    [b] to it empties it, and move-assigning it to itself empties it. *)
Theorem self_assignment (σ : store) (a : addr) (v : T) :
  σ !! a = Some {| value_ := Some v |} →
  copy_assign a a σ = σ ∧
  copy_assign a a σ !! a = Some {| value_ := Some v |} ∧
  (∀ b, b ≠ a → copy_assign a b σ !! a = Some empty) ∧
  move_assign a a σ !! a = Some empty.
Proof.
  intros Ha. rewrite copy_assign_self. repeat split; [done | |].
  - intros b Hb. rewrite copy_assign_distinct by done.
    apply alter_reset_lookup. by eexists.
  - apply move_assign_this. by eexists.
Qed.

End cache_properties.

(** C5 as stated fails: copy-assigning the populated cache at address 1 to
    itself does not leave the destination empty. *)
Lemma copy_assign_self_keeps_value :
  ¬ (∀ (σ : gmap addr (non_propagating_cache Z)) (dst other : addr)
       (c d : non_propagating_cache Z),
       σ !! other = Some c → σ !! dst = Some d →
       copy_assign dst other σ !! dst = Some empty ∧
       copy_assign dst other σ !! other = Some c).
Proof.
  intros H.
  destruct (H example_store 1%positive 1%positive
              {| value_ := Some 7%Z |} {| value_ := Some 7%Z |}
              eq_refl eq_refl) as [Hdst _].
  vm_compute in Hdst. discriminate Hdst.
Qed.

Lemma copy_resets_distinct_destination_witness :
  copy_ctor 3%positive 1%positive example_store !! 3%positive = Some empty ∧
  copy_ctor 3%positive 1%positive example_store !! 1%positive
    = Some {| value_ := Some 7%Z |} ∧
  copy_assign 2%positive 1%positive example_store !! 2%positive = Some empty ∧
  copy_assign 2%positive 1%positive example_store !! 1%positive
    = Some {| value_ := Some 7%Z |} ∧
  copy_assign 1%positive 1%positive example_store = example_store.
Proof.
  apply (copy_resets_distinct_destination example_store 1%positive 3%positive
           2%positive {| value_ := Some 7%Z |} {| value_ := None |});
    [reflexivity | reflexivity | reflexivity | discriminate].
Defined.

Lemma move_resets_destination_and_source_witness :
  move_ctor 3%positive 1%positive example_store !! 3%positive = Some empty ∧
  move_ctor 3%positive 1%positive example_store !! 1%positive = Some empty ∧
  move_assign 2%positive 1%positive example_store !! 2%positive = Some empty ∧
  move_assign 2%positive 1%positive example_store !! 1%positive = Some empty.
Proof.
  apply (move_resets_destination_and_source example_store 1%positive
           3%positive 2%positive {| value_ := Some 7%Z |} {| value_ := None |});
    reflexivity.
Defined.

Lemma self_assignment_witness :
  copy_assign 1%positive 1%positive example_store = example_store ∧
  copy_assign 1%positive 1%positive example_store !! 1%positive
    = Some {| value_ := Some 7%Z |} ∧
  (∀ b, b ≠ 1%positive →
        copy_assign 1%positive b example_store !! 1%positive = Some empty) ∧
  move_assign 1%positive 1%positive example_store !! 1%positive = Some empty.
Proof.
  apply (self_assignment example_store 1%positive 7%Z). reflexivity.
Defined.

End NonPropagatingCache.

(** ** maybe_present.hpp, cached_iterator.hpp and slice_view.hpp *)
Module SliceView.

(** *** What the headers take from <ranges>, <algorithm> and <optional> *)

(** The strongest iterator concept that [std::ranges::iterator_t<R>]
    models; each concept subsumes the ones before it. *)
Inductive iterator_concept : Type :=
| input_iterator
| forward_iterator
| bidirectional_iterator
| random_access_iterator
| contiguous_iterator.

(** What the templates ask of the range type [R]: its iterator concept,
    whether [std::ranges::size] is available, and the width in bits of
    [std::ranges::range_difference_t<R>]. *)
Record range_type : Type := {
  iterator_category : iterator_concept;
  is_sized : bool;
  difference_bits : Z
}.

(** [std::ranges::forward_range<R>] *)
Definition forward_range (R : range_type) : bool :=
  match iterator_category R with
  | input_iterator => false
  | _ => true
  end.

(** [std::ranges::random_access_range<R>] *)
Definition random_access_range (R : range_type) : bool :=
  match iterator_category R with
  | random_access_iterator | contiguous_iterator => true
  | _ => false
  end.

(** [std::ranges::sized_range<R>] *)
Definition sized_range (R : range_type) : bool := is_sized R.

(** A position in the base sequence: the number of increments that lead
    from [std::ranges::begin(base_)] to it. *)
Abbreviation iterator := nat.

(** The signed and unsigned integers of [w] bits. *)
Definition wrap_signed (w x : Z) : Z :=
  ((x + 2 ^ (w - 1)) mod 2 ^ w - 2 ^ (w - 1))%Z.

Definition wrap_unsigned (w x : Z) : Z := (x mod 2 ^ w)%Z.

(** [std::max(a, b)]: [(a < b) ? b : a] *)
Definition std_max (a b : Z) : Z := if (a <? b)%Z then b else a.

(** [std::clamp(v, lo, hi)]: [(v < lo) ? lo : (hi < v) ? hi : v] *)
Definition std_clamp (v lo hi : Z) : Z :=
  if (v <? lo)%Z then lo else if (hi <? v)%Z then hi else v.

(** The loop of [std::ranges::advance(i, n, bound)] for [n >= 0]:
    [while (n > 0 && i != bound) { ++i; --n; }] *)
Fixpoint advance (i : iterator) (n : nat) (bound : iterator) : iterator :=
  match n with
  | O => i
  | S n' => if decide (i = bound) then i else advance (S i) n' bound
  end.

(** [std::ranges::next(i, n, bound)]. For [n < 0] the standard requires
    that [bound] precedes [i], which fails for [i] the start of a
    sequence and [bound] its end: undefined, rendered as [None]. *)
Definition ranges_next (i : iterator) (n : Z) (bound : iterator) : option iterator :=
  if (n <? 0)%Z then None else Some (advance i (Z.to_nat n) bound).

(** *** maybe_present.hpp *)

(** The closure type of one lambda-expression, [decltype([]() {})]. Every
    expansion of [DD_UNIQUE_EMPTY_TYPE] holds a lambda-expression of its
    own, told apart here by the place of the expansion. *)
Inductive closure_type : Type := closure (site : nat).

(** The class types the cache fields range over. *)
Inductive cpp_type : Type :=
| optional_iterator               (* std::optional<std::ranges::iterator_t<R>> *)
| non_propagating_cache_iterator  (* dd::non_propagating_cache<std::ranges::iterator_t<R>> *)
| empty_type (T : closure_type).  (* dd::empty_type<T> *)

#[global] Instance closure_type_eq_dec : EqDecision closure_type.
Proof. solve_decision. Defined.

#[global] Instance cpp_type_eq_dec : EqDecision cpp_type.
Proof. solve_decision. Defined.

(** [std::is_empty_v<T>]: [empty_type] has no data member, the two caches
    hold a [std::optional]. *)
Definition is_empty (t : cpp_type) : bool :=
  match t with
  | empty_type _ => true
  | _ => false
  end.

(** [maybe_present_t<Present, T, E>]: [std::conditional_t<Present, T, E>] *)
Definition maybe_present_t (Present : bool) (T E : cpp_type) : cpp_type :=
  if Present then T else E.

(** The values of an object of each type. *)
Definition obj (t : cpp_type) : Type :=
  match t with
  | optional_iterator => option iterator
  | non_propagating_cache_iterator =>
      NonPropagatingCache.non_propagating_cache iterator
  | empty_type _ => unit
  end.

(** Default-initialisation: an optional starts disengaged, a cache starts
    with [value_{}], and [empty_type(auto&&...)] takes no argument. *)
Definition default_init (t : cpp_type) : obj t :=
  match t with
  | optional_iterator => None
  | non_propagating_cache_iterator => NonPropagatingCache.empty
  | empty_type _ => tt
  end.

(** Copy-construction from [x]: [std::optional] copies the engaged state
    and the value, [non_propagating_cache] starts empty. *)
Definition copy_init (t : cpp_type) : obj t → obj t :=
  match t with
  | optional_iterator => fun x => x
  | non_propagating_cache_iterator => fun _ => NonPropagatingCache.empty
  | empty_type _ => fun _ => tt
  end.

(** Move-construction from [x]: the new object, and [x] afterwards.
    [std::optional]'s move constructor moves the contained value and leaves
    the source engaged (an iterator that was moved from keeps its position);
    [non_propagating_cache] starts empty and resets the source. *)
Definition move_init (t : cpp_type) : obj t → obj t * obj t :=
  match t with
  | optional_iterator => fun x => (x, x)
  | non_propagating_cache_iterator =>
      fun _ => (NonPropagatingCache.empty, NonPropagatingCache.empty)
  | empty_type _ => fun _ => (tt, tt)
  end.

(** *** cached_iterator.hpp *)

(** [concept cacheable_range] *)
Definition cacheable_range (R : range_type) : bool :=
  forward_range R && negb (random_access_range R && sized_range R).

(** [cached_iterator_t<R>] *)
Definition cached_iterator_t : cpp_type := non_propagating_cache_iterator.

(** [maybe_cached_iterator_t<R, E>] *)
Definition maybe_cached_iterator_t (R : range_type) (E : cpp_type) : cpp_type :=
  maybe_present_t (cacheable_range R) cached_iterator_t E.

(** *** slice_view.hpp *)

(** [static constexpr bool use_cached_iterators_] *)
Definition use_cached_iterators_ (R : range_type) : bool :=
  forward_range R && negb (random_access_range R && sized_range R).

(** [using cached_iterator = std::optional<std::ranges::iterator_t<R>>;] *)
Definition cached_iterator : cpp_type := optional_iterator.

(** The default argument [E = DD_UNIQUE_EMPTY_TYPE] as it is expanded for
    the declaration of [begin_] and for the declaration of [end_]. *)
Definition begin_closure : closure_type := closure 164.
Definition end_closure : closure_type := closure 166.

(** The type of a cache field whose placeholder is [empty_type<E>]:
    [maybe_present_t<use_cached_iterators_, cached_iterator>]. *)
Definition field_type (R : range_type) (E : closure_type) : cpp_type :=
  maybe_present_t (use_cached_iterators_ R) cached_iterator (empty_type E).

(** The outcome of a constructor whose body asserts. *)
Inductive assertion : Type :=
| start_ge_0     (* assert(start >= 0) *)
| end_ge_0       (* assert(end >= 0) *)
| end_ge_start.  (* assert(end >= start) *)

Inductive constructed (X : Type) : Type :=
| constructed_ok (x : X)
| assertion_failed (a : assertion).

Arguments constructed_ok {X} x.
Arguments assertion_failed {X} a.

(** [assert(cond)], followed by [k]: checked unless [NDEBUG] is defined. *)
Definition assert_then {X : Type} (NDEBUG cond : bool) (a : assertion)
    (k : constructed X) : constructed X :=
  if NDEBUG then k else if cond then k else assertion_failed a.

Section slice_view.
Context {A : Type}.

(** [std::ranges::begin] and [std::ranges::end] of a base sequence with
    the elements [base], and [std::ranges::ssize] in a difference type of
    [w] bits. *)
Definition ranges_begin (base : list A) : iterator := 0.
Definition ranges_end (base : list A) : iterator := length base.
Definition ranges_ssize (w : Z) (base : list A) : Z :=
  wrap_signed w (Z.of_nat (length base)).

(** The data members of [slice_view<R>]; [base_] is given by the elements
    of the base sequence. *)
Record slice_view (R : range_type) : Type := {
  base_ : list A;
  start_index_ : Z;
  end_index_ : Z;
  begin_ : obj (field_type R begin_closure);
  end_ : obj (field_type R end_closure)
}.

Arguments base_ {R} _.
Arguments start_index_ {R} _.
Arguments end_index_ {R} _.
Arguments begin_ {R} _.
Arguments end_ {R} _.

(** [slice_view(R base, difference_type start, difference_type end)] *)
Definition slice_view_ctor (NDEBUG : bool) (R : range_type)
    (base : list A) (start end' : Z) : constructed (slice_view R) :=
  let self := {| base_ := base; start_index_ := start; end_index_ := end';
                 begin_ := default_init _; end_ := default_init _ |} in
  assert_then NDEBUG (start >=? 0)%Z start_ge_0
    (assert_then NDEBUG (end' >=? 0)%Z end_ge_0
       (assert_then NDEBUG (end' >=? start)%Z end_ge_start
          (constructed_ok self))).

(** [slice_view() = default;] with [R{}] holding the elements [base]:
    the default member initialisers. *)
Definition slice_view_default (R : range_type) (base : list A) : slice_view R :=
  {| base_ := base; start_index_ := 0; end_index_ := 0;
     begin_ := default_init _; end_ := default_init _ |}.

(** The implicit copy constructor: member by member. The cache fields of the
    copy hold the iterators of [other], which were computed on [other]'s
    base; for a base that refers to a container it does not own
    ([std::ranges::ref_view]) both views are over that container. *)
Definition slice_view_copy {R : range_type} (other : slice_view R) : slice_view R :=
  {| base_ := base_ other;
     start_index_ := start_index_ other;
     end_index_ := end_index_ other;
     begin_ := copy_init _ (begin_ other);
     end_ := copy_init _ (end_ other) |}.

(** The implicit move constructor, member by member, for a base that refers
    to a container it does not own: [std::ranges::ref_view], which
    [std::views::all] gives for an lvalue. Moving such a base copies the
    reference, so the new view and [other] afterwards are over the same
    container and an iterator of one is an iterator of the other. (A base
    that owns its container is left out: the cells of the new view would
    hold iterators of the container moved from, which offsets into the base
    cannot tell from iterators of the new one.) *)
Definition slice_view_move {R : range_type} (other : slice_view R)
    : slice_view R * slice_view R :=
  let b := move_init _ (begin_ other) in
  let e := move_init _ (end_ other) in
  ({| base_ := base_ other;
      start_index_ := start_index_ other;
      end_index_ := end_index_ other;
      begin_ := fst b; end_ := fst e |},
   {| base_ := base_ other;
      start_index_ := start_index_ other;
      end_index_ := end_index_ other;
      begin_ := snd b; end_ := snd e |}).

(** [next(auto& iter, difference_type n) const]: the iterator returned and
    [iter] afterwards. *)
Definition next (R : range_type) (E : closure_type) (base : list A)
    (iter : obj (field_type R E)) (n : Z) : option (iterator * obj (field_type R E)) :=
  (if use_cached_iterators_ R as Present
      return obj (maybe_present_t Present cached_iterator (empty_type E)) →
             option (iterator * obj (maybe_present_t Present cached_iterator (empty_type E)))
   then fun iter =>
     match iter with
     | Some v => Some (v, iter)                       (* return iter.value(); *)
     | None =>
         next_iter ← ranges_next (ranges_begin base) n (ranges_end base);
         Some (next_iter, Some next_iter)             (* iter.emplace(next_iter); *)
     end
   else fun iter =>
     next_iter ← ranges_next (ranges_begin base) n (ranges_end base);
     Some (next_iter, iter)) iter.

(** [begin(this auto&& self)]: the iterator and [self] afterwards. *)
Definition begin {R : range_type} (self : slice_view R) : option (iterator * slice_view R) :=
  '(it, c) ← next R begin_closure (base_ self) (begin_ self) (start_index_ self);
  Some (it, {| base_ := base_ self; start_index_ := start_index_ self;
               end_index_ := end_index_ self; begin_ := c; end_ := end_ self |}).

(** [end(this auto&& self)] *)
Definition end' {R : range_type} (self : slice_view R) : option (iterator * slice_view R) :=
  '(it, c) ← next R end_closure (base_ self) (end_ self) (end_index_ self);
  Some (it, {| base_ := base_ self; start_index_ := start_index_ self;
               end_index_ := end_index_ self; begin_ := begin_ self; end_ := c |}).

(** [size(this auto&& self) requires std::ranges::sized_range<...>]: the
    count and [self] afterwards; [None] where the constraint fails. Both
    clamped values lie between [zero] and [base_size], so their difference
    is a value of the difference type. *)
Definition size {R : range_type} (self : slice_view R) : option (Z * slice_view R) :=
  if sized_range R then
    let zero := 0%Z in
    let base_size := ranges_ssize (difference_bits R) (base_ self) in
    let slice_size :=
      std_max zero (std_clamp (end_index_ self) zero base_size -
                    std_clamp (start_index_ self) zero base_size)%Z in
    Some (wrap_unsigned (difference_bits R) slice_size, self)
  else None.

(** The range-based [for] loop over a slice,
    [for (it = first; it != last; ++it) *it], run for at most [fuel]
    elements; it stops where an iterator past the base would be read. *)
Fixpoint traverse (base : list A) (fuel : nat) (first last : iterator) : list A :=
  match fuel with
  | O => []
  | S fuel' =>
      if decide (first = last) then []
      else match base !! first with
           | Some x => x :: traverse base fuel' (S first) last
           | None => []
           end
  end.

(** The elements of a slice view, as [std::ranges::equal] reads them. *)
Definition elements {R : range_type} (self : slice_view R) : option (list A) :=
  '(first, self1) ← begin self;
  '(last, _) ← end' self1;
  Some (traverse (base_ self) (length (base_ self)) first last).

(** *** Notions the properties are stated with *)

(** The position [n] steps after the start of [base], or its end if that
    comes first. *)
Definition position (base : list A) (n : Z) : iterator :=
  advance (ranges_begin base) (Z.to_nat n) (ranges_end base).

(** The position a cache field holds: none for a placeholder. *)
Definition cached (R : range_type) (E : closure_type)
    (c : obj (field_type R E)) : option iterator :=
  (if use_cached_iterators_ R as Present
      return obj (maybe_present_t Present cached_iterator (empty_type E)) →
             option iterator
   then fun o => o else fun _ => None) c.

(** The endpoint queries. *)
Inductive query : Type := query_begin | query_end.

Definition run_query {R : range_type} (q : query) (self : slice_view R)
    : option (iterator * slice_view R) :=
  match q with
  | query_begin => begin self
  | query_end => end' self
  end.




(** The states of one slice view object whose user respects the
    constructor's precondition: constructed or default-constructed, then
    queried with [begin], [end] and [size] any number of times. Every
    iterator in its cache fields was computed on its own base. (A view made
    by copying or moving another is left out: its cache fields hold the
    iterators computed on the other view's base.) *)
Inductive reachable {R : range_type} : slice_view R → Prop :=
| reachable_ctor NDEBUG base start end_ self :
    (0 ≤ start ≤ end_)%Z →
    slice_view_ctor NDEBUG R base start end_ = constructed_ok self →
    reachable self
| reachable_default base :
    reachable (slice_view_default R base)
| reachable_begin self it self1 :
    reachable self → begin self = Some (it, self1) → reachable self1
| reachable_end self it self1 :
    reachable self → end' self = Some (it, self1) → reachable self1
| reachable_size self n self1 :
    reachable self → size self = Some (n, self1) → reachable self1.

(** What every reachable slice view satisfies: the indices are ordered, and
    a populated cache holds the position of its index. *)
Definition cache_consistent (R : range_type) (E : closure_type) (base : list A)
    (c : obj (field_type R E)) (n : Z) : Prop :=
  ∀ v, cached R E c = Some v → v = position base n.


End slice_view.

Arguments slice_view : clear implicits.
Arguments base_ {A R} _.
Arguments start_index_ {A R} _.
Arguments end_index_ {A R} _.
Arguments begin_ {A R} _.
Arguments end_ {A R} _.

(** *** Concrete range types and views *)

(** [std::list<int>] behind [std::views::all]: bidirectional and sized,
    so positions are cached. *)
Definition std_list : range_type :=
  {| iterator_category := bidirectional_iterator; is_sized := true;
     difference_bits := 64 |}.

(** [std::array<int, N>] and [std::vector<int>]: contiguous and sized, so
    nothing is cached. *)
Definition std_array : range_type :=
  {| iterator_category := contiguous_iterator; is_sized := true;
     difference_bits := 64 |}.

Definition example_base : list Z := [10; 20; 30; 40; 50]%Z.

(** [slice_view(lst, 2, 5)] over the list of examples/basic.cpp, as
    constructed and after one call of [begin()] and one of [end()]. *)
Definition list_slice : slice_view Z std_list :=
  @Build_slice_view Z std_list example_base 2 5 None None.

Definition list_slice_populated : slice_view Z std_list :=
  @Build_slice_view Z std_list example_base 2 5 (Some 2) (Some 5).


(** Construction with assertions enabled, then a query. *)
Definition construct (R : range_type) (base : list Z) (start end_ : Z)
    : option (slice_view Z R) :=
  match slice_view_ctor false R base start end_ with
  | constructed_ok self => Some self
  | assertion_failed _ => None
  end.

Section slice_view_properties.
Context {A : Type}.

(** *** The standard-library operations *)

Lemma advance_min (n i bound : nat) :
  i ≤ bound → advance i n bound = Nat.min (i + n) bound.
Proof.
  revert i. induction n as [|n IH]; intros i Hle; simpl.
  - lia.
  - case_decide as Heq.
    + lia.
    + rewrite IH by lia. lia.
Qed.

Lemma position_min (base : list A) (n : Z) :
  position base n = Nat.min (Z.to_nat n) (length base).
Proof.
  unfold position, ranges_begin, ranges_end.
  rewrite advance_min by lia. reflexivity.
Qed.

Lemma position_Z (base : list A) (n : Z) :
  (0 ≤ n)%Z →
  Z.of_nat (position base n) = Z.min n (Z.of_nat (length base)).
Proof. intros Hn. rewrite position_min. lia. Qed.




Lemma std_clamp_min (v hi : Z) :
  (0 ≤ v)%Z → (0 ≤ hi)%Z → std_clamp v 0 hi = Z.min v hi.
Proof.
  intros Hv Hhi. unfold std_clamp.
  destruct (Z.ltb_spec v 0); [lia |].
  destruct (Z.ltb_spec hi v); lia.
Qed.

Lemma std_max_max (a b : Z) : std_max a b = Z.max a b.
Proof. unfold std_max. destruct (Z.ltb_spec a b); lia. Qed.

Lemma pow2_double (w : Z) : (0 < w)%Z → (2 ^ w = 2 * 2 ^ (w - 1))%Z.
Proof.
  intros Hw. replace w with (Z.succ (w - 1)) at 1 by lia.
  apply Z.pow_succ_r. lia.
Qed.

Lemma wrap_signed_small (w x : Z) :
  (0 < w)%Z → (0 ≤ x < 2 ^ (w - 1))%Z → wrap_signed w x = x.
Proof.
  intros Hw Hx. unfold wrap_signed.
  rewrite Z.mod_small; [lia |]. rewrite (pow2_double w Hw). lia.
Qed.

Lemma wrap_unsigned_small (w x : Z) :
  (0 < w)%Z → (0 ≤ x < 2 ^ (w - 1))%Z → wrap_unsigned w x = x.
Proof.
  intros Hw Hx. unfold wrap_unsigned.
  apply Z.mod_small. rewrite (pow2_double w Hw). lia.
Qed.


(** *** The cache fields *)

(** Tactic: case analysis on [use_cached_iterators_ R] under a goal about
    cache fields [c], whose type depends on it. *)
Ltac case_use R :=
  unfold cache_consistent, cached, next, field_type in *;
  destruct (use_cached_iterators_ R); cbv beta iota in *.


(** Asking again gives the same iterator and leaves the field as it is. *)
Lemma next_again (R : range_type) (E : closure_type) (base : list A)
    (c c' : obj (field_type R E)) (n : Z) (it : iterator) :
  next R E base c n = Some (it, c') → next R E base c' n = Some (it, c').
Proof.
  revert c c'. case_use R; intros c c' Hnext.
  - destruct c as [v|]; simplify_eq; [reflexivity |].
    destruct (ranges_next _ _ _); simplify_eq/=. reflexivity.
  - destruct (ranges_next _ _ _); simplify_eq/=. reflexivity.
Qed.

(** Without caching, [next] computes the iterator from the base alone and
    leaves the placeholder as it is. *)
Lemma next_uncached (R : range_type) (E : closure_type) (base : list A)
    (c : obj (field_type R E)) (n : Z) :
  use_cached_iterators_ R = false →
  next R E base c n =
    (λ it, (it, c)) <$> ranges_next (ranges_begin base) n (ranges_end base).
Proof.
  revert c. case_use R; intros c Huse; [discriminate |].
  destruct (ranges_next _ _ _); reflexivity.
Qed.


Lemma cached_copy (R : range_type) (E : closure_type) (c : obj (field_type R E)) :
  cached R E (copy_init _ c) = cached R E c.
Proof. revert c. case_use R; intros c; reflexivity. Qed.

Lemma cached_move (R : range_type) (E : closure_type) (c : obj (field_type R E)) :
  cached R E (fst (move_init _ c)) = cached R E c ∧
  cached R E (snd (move_init _ c)) = cached R E c.
Proof. revert c. case_use R; intros c; split; reflexivity. Qed.

Lemma cached_Some_use (R : range_type) (E : closure_type)
    (c : obj (field_type R E)) (v : iterator) :
  cached R E c = Some v → use_cached_iterators_ R = true.
Proof. revert c. case_use R; intros c Hc; [reflexivity | discriminate]. Qed.


(** *** The constructor *)

Lemma ctor_ok (NDEBUG : bool) (R : range_type) (base : list A) (start end_ : Z) :
  (0 ≤ start ≤ end_)%Z →
  slice_view_ctor NDEBUG R base start end_ =
    constructed_ok {| base_ := base; start_index_ := start; end_index_ := end_;
                      begin_ := default_init _; end_ := default_init _ |}.
Proof.
  intros Hpre. unfold slice_view_ctor, assert_then. rewrite !Z.geb_leb.
  destruct NDEBUG; [reflexivity |].
  destruct (Z.leb_spec 0 start); [|lia].
  destruct (Z.leb_spec 0 end_); [|lia].
  destruct (Z.leb_spec start end_); [reflexivity | lia].
Qed.

Lemma ctor_debug_fails (R : range_type) (base : list A) (start end_ : Z) :
  (∃ a, slice_view_ctor false R base start end_ = assertion_failed a) ↔
  (start < 0 ∨ end_ < 0 ∨ end_ < start)%Z.
Proof.
  unfold slice_view_ctor, assert_then. rewrite !Z.geb_leb.
  destruct (Z.leb_spec 0 start); [|split; [lia | eauto]].
  destruct (Z.leb_spec 0 end_); [|split; [lia | eauto]].
  destruct (Z.leb_spec start end_); [|split; [lia | eauto]].
  split; [intros [a Ha]; discriminate | lia].
Qed.

(** *** The endpoint queries *)



Lemma size_unchanged {R : range_type} (self self1 : slice_view A R) (n : Z) :
  size self = Some (n, self1) → self1 = self.
Proof. unfold size. destruct (sized_range R); congruence. Qed.






(** *** The properties *)

(** C3: for a sized base of length [L] (a value of the difference type) and
    indices [0 <= start_index_ <= end_index_], [size] returns
    [max(0, min(end_index_, L) - min(start_index_, L))], a value of the
    unsigned type; whatever the two cache fields hold, the count is the
    same and the fields are left as they were. *)
Theorem size_count {R : range_type} (self : slice_view A R) :
  sized_range R = true →
  (0 < difference_bits R)%Z →
  (Z.of_nat (length (base_ self)) < 2 ^ (difference_bits R - 1))%Z →
  (0 ≤ start_index_ self ≤ end_index_ self)%Z →
  let L := Z.of_nat (length (base_ self)) in
  let count := Z.max 0 (Z.min (end_index_ self) L - Z.min (start_index_ self) L) in
  size self = Some (count, self) ∧
  (0 ≤ count < 2 ^ difference_bits R)%Z ∧
  ∀ b e,
    let other : slice_view A R :=
      {| base_ := base_ self; start_index_ := start_index_ self;
         end_index_ := end_index_ self; begin_ := b; end_ := e |} in
    size other = Some (count, other).
Proof.
  intros Hsized Hw HL Hidx L count.
  assert (0 ≤ count < 2 ^ (difference_bits R - 1))%Z as Hcount by lia.
  assert (∀ other : slice_view A R,
            base_ other = base_ self → start_index_ other = start_index_ self →
            end_index_ other = end_index_ self →
            size other = Some (count, other)) as Hsize.
  { intros other Hb Hs He. unfold size, ranges_ssize.
    rewrite Hsized, Hb, Hs, He. cbv zeta.
    rewrite wrap_signed_small by lia.
    rewrite !std_clamp_min, std_max_max by lia.
    fold L. fold count. by rewrite wrap_unsigned_small. }
  split; [by apply Hsize |]. split.
  - rewrite (pow2_double _ Hw). lia.
  - intros b e other. by apply Hsize.
Qed.


(** C7: the cache fields of a slice view hold a position exactly for the
    range types that are forward and not both random-access and sized (the
    same condition as [cacheable_range]). For the others the two fields are
    two different empty types without state, and [begin] and [end] compute
    their iterator from the base alone and leave the view as it is. *)
Theorem storage_elision (R : range_type) :
  (use_cached_iterators_ R = true ↔
     forward_range R = true ∧
     ¬ (random_access_range R = true ∧ sized_range R = true)) ∧
  use_cached_iterators_ R = cacheable_range R ∧
  (use_cached_iterators_ R = true →
     field_type R begin_closure = cached_iterator ∧
     field_type R end_closure = cached_iterator ∧
     is_empty cached_iterator = false ∧
     ∀ E v, ∃ c : obj (field_type R E), cached R E c = Some v) ∧
  (use_cached_iterators_ R = false →
     field_type R begin_closure = empty_type begin_closure ∧
     field_type R end_closure = empty_type end_closure ∧
     field_type R begin_closure ≠ field_type R end_closure ∧
     is_empty (field_type R begin_closure) = true ∧
     is_empty (field_type R end_closure) = true ∧
     (∀ E (c1 c2 : obj (field_type R E)), c1 = c2) ∧
     ∀ self : slice_view A R,
       begin self =
         ((λ it, (it, self)) <$>
            ranges_next (ranges_begin (base_ self)) (start_index_ self)
              (ranges_end (base_ self))) ∧
       end' self =
         ((λ it, (it, self)) <$>
            ranges_next (ranges_begin (base_ self)) (end_index_ self)
              (ranges_end (base_ self)))).
Proof.
  split; [|split; [reflexivity |split]].
  - unfold use_cached_iterators_.
    destruct (forward_range R), (random_access_range R), (sized_range R);
      simpl; intuition congruence.
  - intros Huse. unfold field_type, cached. rewrite Huse.
    repeat split. intros E v. by exists (Some v).
  - intros Huse.
    assert (∀ E (c1 c2 : obj (field_type R E)), c1 = c2) as Hone.
    { unfold field_type. rewrite Huse. by intros E [] []. }
    unfold field_type at 1 2 3 4 5 6. rewrite Huse. simpl.
    repeat split; try done.
    + destruct self as [base s e b e2]. unfold begin. simpl.
      rewrite next_uncached by done.
      destruct (ranges_next _ _ _); reflexivity.
    + destruct self as [base s e b e2]. unfold end'. simpl.
      rewrite next_uncached by done.
      destruct (ranges_next _ _ _); reflexivity.
Qed.


(** C9: with assertions enabled the constructor stops at an assertion
    exactly when [start] is negative, [end] is negative or [end < start];
    when [0 <= start <= end] no assertion fires in either build and the view
    holds the base and both indices as given; with assertions compiled out
    nothing is checked, and a query with a negative index is then
    undefined. *)
Theorem ctor_precondition (R : range_type) (base : list A) (start end_ : Z) :
  let self := {| base_ := base; start_index_ := start; end_index_ := end_;
                 begin_ := default_init (field_type R begin_closure);
                 end_ := default_init (field_type R end_closure) |} in
  ((∃ a, slice_view_ctor false R base start end_ = assertion_failed a) ↔
   (start < 0 ∨ end_ < 0 ∨ end_ < start)%Z) ∧
  ((0 ≤ start ≤ end_)%Z →
   ∀ NDEBUG, slice_view_ctor NDEBUG R base start end_ = constructed_ok self) ∧
  slice_view_ctor true R base start end_ = constructed_ok self ∧
  ((start < 0)%Z → begin self = None) ∧
  ((end_ < 0)%Z → end' self = None).
Proof.
  intros self. split; [apply ctor_debug_fails |].
  split; [intros Hpre NDEBUG; by apply ctor_ok |].
  split; [reflexivity |].
  assert (∀ E n, (n < 0)%Z →
            next R E base (default_init (field_type R E)) n = None) as Hneg.
  { intros E n Hn. unfold next, field_type, ranges_next.
    destruct (Z.ltb_spec n 0); [|lia].
    destruct (use_cached_iterators_ R); reflexivity. }
  split; intros Hlt.
  - unfold begin. simpl. by rewrite Hneg.
  - unfold end'. simpl. by rewrite Hneg.
Qed.

End slice_view_properties.

(** *** Instances *)

Lemma list_slice_reachable : reachable list_slice.
Proof.
  apply (reachable_ctor false example_base 2 5); [lia | reflexivity].
Defined.

Lemma list_slice_populated_reachable : reachable list_slice_populated.
Proof.
  apply (reachable_end
           (@Build_slice_view Z std_list example_base 2 5 (Some 2) None) 5);
    [|reflexivity].
  apply (reachable_begin list_slice 2); [|reflexivity].
  apply list_slice_reachable.
Defined.


(** The cases of tests/test_slice_view.cpp and examples/basic.cpp. *)
Example test_basic_slicing_and_size :
  construct std_array [10; 11; 12; 13; 14]%Z 1 4 ≫= elements
    = Some [11; 12; 13]%Z ∧
  fst <$> (construct std_array [10; 11; 12; 13; 14]%Z 1 4 ≫= size) = Some 3%Z.
Proof. split; reflexivity. Qed.

Example test_range_adaptor :
  construct std_array [0; 1; 2; 3; 4; 5]%Z 2 5 ≫= elements = Some [2; 3; 4]%Z ∧
  fst <$> (construct std_array [0; 1; 2; 3; 4; 5]%Z 2 5 ≫= size) = Some 3%Z.
Proof. split; reflexivity. Qed.

Example test_upper_bound_clamped :
  construct std_array [10; 11; 12; 13; 14]%Z 3 10 ≫= elements
    = Some [13; 14]%Z ∧
  fst <$> (construct std_array [10; 11; 12; 13; 14]%Z 3 10 ≫= size) = Some 2%Z.
Proof. split; reflexivity. Qed.

Example test_both_bounds_clamped :
  construct std_array [10; 11; 12; 13; 14]%Z 10 10 ≫= elements = Some [] ∧
  fst <$> (construct std_array [10; 11; 12; 13; 14]%Z 10 10 ≫= size) = Some 0%Z.
Proof. split; reflexivity. Qed.

Example example_cached_list :
  construct std_list example_base 2 5 ≫= elements = Some [30; 40; 50]%Z ∧
  (construct std_list example_base 2 5 ≫= begin) ≫= (λ r, end' (snd r))
    = Some (5, list_slice_populated).
Proof. split; reflexivity. Qed.

(** *** Copying and moving a slice view *)

(** A copy holds what the cache fields of its source hold. *)
Lemma slice_view_copy_cached {A : Type} {R : range_type} (self : slice_view A R) :
  cached R begin_closure (begin_ (slice_view_copy self))
    = cached R begin_closure (begin_ self) ∧
  cached R end_closure (end_ (slice_view_copy self))
    = cached R end_closure (end_ self).
Proof. split; apply cached_copy. Qed.

(** After a move, the new view and the source both hold what the cache
    fields of the source held. *)
Lemma slice_view_move_cached {A : Type} {R : range_type} (self : slice_view A R) :
  let moved := slice_view_move self in
  cached R begin_closure (begin_ (fst moved)) = cached R begin_closure (begin_ self) ∧
  cached R end_closure (end_ (fst moved)) = cached R end_closure (end_ self) ∧
  cached R begin_closure (begin_ (snd moved)) = cached R begin_closure (begin_ self) ∧
  cached R end_closure (end_ (snd moved)) = cached R end_closure (end_ self).
Proof.
  simpl. repeat split;
    first [apply (proj1 (cached_move _ _ _)) | apply (proj2 (cached_move _ _ _))].
Qed.

(** C1, evaluated on [slice_view(lst, 2, 5)] over a [std::list] after
    [begin()] and [end()]: positions are cached for this range type, the
    cache fields are [std::optional]s and not the [cached_iterator_t] of
    cached_iterator.hpp, and the copy's fields hold the positions 2 and 5
    of its source instead of being empty. *)
Theorem copy_keeps_cache_populated :
  let copy := slice_view_copy list_slice_populated in
  reachable list_slice_populated ∧
  use_cached_iterators_ std_list = true ∧
  field_type std_list begin_closure = optional_iterator ∧
  maybe_cached_iterator_t std_list (empty_type begin_closure)
    = non_propagating_cache_iterator ∧
  cached std_list begin_closure (begin_ list_slice_populated) = Some 2 ∧
  cached std_list end_closure (end_ list_slice_populated) = Some 5 ∧
  cached std_list begin_closure (begin_ copy) = Some 2 ∧
  cached std_list end_closure (end_ copy) = Some 5.
Proof.
  intros copy. split; [apply list_slice_populated_reachable |].
  repeat split.
Qed.

(** C2, evaluated on [slice_view(lst, 2, 5)] over an lvalue [std::list]
    after [begin()] and [end()], a state the view reaches: after
    [auto moved = std::move(sv);] the cache fields of the new view and of
    the source all still hold the positions 2 and 5 instead of being empty,
    both views are over the list [lst], and [begin()] and [end()] on the
    new view return the positions it was handed and write nothing. *)
Theorem move_keeps_cache_populated :
  let moved := slice_view_move list_slice_populated in
  reachable list_slice_populated ∧
  use_cached_iterators_ std_list = true ∧
  cached std_list begin_closure (begin_ (fst moved)) = Some 2 ∧
  cached std_list end_closure (end_ (fst moved)) = Some 5 ∧
  cached std_list begin_closure (begin_ (snd moved)) = Some 2 ∧
  cached std_list end_closure (end_ (snd moved)) = Some 5 ∧
  base_ (fst moved) = example_base ∧
  base_ (snd moved) = example_base ∧
  begin (fst moved) = Some (2, fst moved) ∧
  end' (fst moved) = Some (5, fst moved).
Proof.
  intros moved. split; [apply list_slice_populated_reachable |].
  repeat split.
Qed.

(** *** Instances of the properties *)

Lemma size_count_witness :
  size list_slice_populated = Some (3%Z, list_slice_populated) ∧
  (0 ≤ 3 < 2 ^ 64)%Z ∧
  ∀ b e,
    let other := @Build_slice_view Z std_list example_base 2 5 b e in
    size other = Some (3%Z, other).
Proof.
  apply (size_count list_slice_populated);
    [reflexivity | reflexivity | reflexivity | simpl; lia].
Defined.



Lemma storage_elision_witness :
  (field_type std_list begin_closure = cached_iterator ∧
   field_type std_list end_closure = cached_iterator) ∧
  (field_type std_array begin_closure = empty_type begin_closure ∧
   field_type std_array end_closure = empty_type end_closure ∧
   field_type std_array begin_closure ≠ field_type std_array end_closure).
Proof.
  split.
  - destruct (proj1 (proj2 (proj2 (storage_elision (A := Z) std_list))) eq_refl)
      as (Hb & He & _).
    split; [exact Hb | exact He].
  - destruct (proj2 (proj2 (proj2 (storage_elision (A := Z) std_array))) eq_refl)
      as (Hb & He & Hne & _).
    split; [exact Hb | split; [exact He | exact Hne]].
Defined.

Lemma ctor_precondition_witness :
  slice_view_ctor false std_list example_base 2 5 = constructed_ok list_slice ∧
  slice_view_ctor true std_list example_base 2 5 = constructed_ok list_slice.
Proof.
  split;
    apply (proj1 (proj2 (ctor_precondition std_list example_base 2 5)));
    lia.
Defined.

End SliceView.

(** ** slice_view.hpp: the accessor, and further properties of the queries *)
Module SliceViewQueries.
Import SliceView.

(** Whether [decltype(self)] of an explicit object parameter
    [this auto&& self] is an lvalue or an rvalue reference. *)
Inductive value_category : Type := lvalue | rvalue.

Section definitions.
Context {A : Type}.

(** [base(this auto&& self) -> R]:
    [return std::forward_like<decltype(self)>(self.base_);] for the calls
    that compile. The result and [self] afterwards: an lvalue [self] has its
    base copied, an rvalue [self] has it moved out, which leaves [base_] in
    the state [moved_from] of [R]'s move constructor. *)
Definition base {R : range_type} (category : value_category)
    (moved_from : list A → list A) (self : slice_view A R)
    : list A * slice_view A R :=
  match category with
  | lvalue => (base_ self, self)
  | rvalue =>
      (base_ self,
       {| base_ := moved_from (base_ self);
          start_index_ := start_index_ self;
          end_index_ := end_index_ self;
          begin_ := begin_ self;
          end_ := end_ self |})
  end.


(** The member functions a caller may invoke on a view it keeps. *)
Inductive call : Type :=
| call_begin
| call_end
| call_size
| call_base.

(** One call on [self]: [self] afterwards, or [None] where the call is
    undefined or its constraint fails. *)
Definition run_call {R : range_type} (c : call) (self : slice_view A R)
    : option (slice_view A R) :=
  match c with
  | call_begin => snd <$> begin self
  | call_end => snd <$> end' self
  | call_size => snd <$> size self
  | call_base => Some (snd (base lvalue (λ b, b) self))
  end.

Fixpoint run_calls {R : range_type} (cs : list call) (self : slice_view A R)
    : option (slice_view A R) :=
  match cs with
  | [] => Some self
  | c :: cs' => self1 ← run_call c self; run_calls cs' self1
  end.

End definitions.

Section properties.
Context {A : Type}.

Lemma begin_frame {R : range_type} (self self1 : slice_view A R) (it : iterator) :
  begin self = Some (it, self1) →
  base_ self1 = base_ self ∧ start_index_ self1 = start_index_ self ∧
  end_index_ self1 = end_index_ self ∧ end_ self1 = end_ self.
Proof.
  unfold begin.
  destruct (next R begin_closure _ _ _) as [[it' c]|]; simpl; [|discriminate].
  intros [= <- <-]. simpl. done.
Qed.

Lemma end_frame {R : range_type} (self self1 : slice_view A R) (it : iterator) :
  end' self = Some (it, self1) →
  base_ self1 = base_ self ∧ start_index_ self1 = start_index_ self ∧
  end_index_ self1 = end_index_ self ∧ begin_ self1 = begin_ self.
Proof.
  unfold end'.
  destruct (next R end_closure _ _ _) as [[it' c]|]; simpl; [|discriminate].
  intros [= <- <-]. simpl. done.
Qed.

Lemma run_call_frame {R : range_type} (c : call) (self self1 : slice_view A R) :
  run_call c self = Some self1 →
  base_ self1 = base_ self ∧ start_index_ self1 = start_index_ self ∧
  end_index_ self1 = end_index_ self.
Proof.
  destruct c; simpl.
  - destruct (begin self) as [[it s]|] eqn:Hb; simpl; [|discriminate].
    intros [= <-]. destruct (begin_frame _ _ _ Hb) as (? & ? & ? & _). done.
  - destruct (end' self) as [[it s]|] eqn:He; simpl; [|discriminate].
    intros [= <-]. destruct (end_frame _ _ _ He) as (? & ? & ? & _). done.
  - destruct (size self) as [[n s]|] eqn:Hs; simpl; [|discriminate].
    intros [= <-]. by rewrite (size_unchanged _ _ _ Hs).
  - intros [= <-]. done.
Qed.

(** X1: a call of [begin] changes nothing of the view but the field
    [begin_], and a call of [end] nothing but the field [end_]: the base,
    both indices and the other cache field are as before. *)
Theorem query_writes_its_own_cache_only {R : range_type}
    (self self1 : slice_view A R) (q : query) (it : iterator) :
  run_query q self = Some (it, self1) →
  base_ self1 = base_ self ∧
  start_index_ self1 = start_index_ self ∧
  end_index_ self1 = end_index_ self ∧
  match q with
  | query_begin => end_ self1 = end_ self
  | query_end => begin_ self1 = begin_ self
  end.
Proof.
  destruct q; simpl; intros Hq.
  - by apply (begin_frame _ _ it).
  - by apply (end_frame _ _ it).
Qed.

(** X2: whatever calls of [begin], [end], [size] and [base] (on an lvalue)
    follow the construction of a view, and in whatever order, [base] still
    returns the sequence the constructor was given and the indices are the
    ones it was given. *)
Theorem base_after_calls {R : range_type} (NDEBUG : bool) (b : list A)
    (start end_ : Z) (cs : list call) (self self1 : slice_view A R)
    (moved_from : list A → list A) :
  slice_view_ctor NDEBUG R b start end_ = constructed_ok self →
  run_calls cs self = Some self1 →
  base lvalue moved_from self1 = (b, self1) ∧
  fst (base rvalue moved_from self1) = b ∧
  start_index_ self1 = start ∧
  end_index_ self1 = end_.
Proof.
  intros Hctor Hrun.
  assert (base_ self = b ∧ start_index_ self = start ∧ end_index_ self = end_)
    as Hself.
  { revert Hctor. unfold slice_view_ctor, assert_then.
    repeat match goal with |- context [if ?c then _ else _] => destruct c end;
      intros [= <-]; done. }
  assert (base_ self1 = base_ self ∧ start_index_ self1 = start_index_ self ∧
          end_index_ self1 = end_index_ self) as Hframe.
  { clear Hctor Hself. revert self Hrun.
    induction cs as [|c cs IH]; intros self Hrun; simpl in Hrun.
    - by injection Hrun as <-.
    - destruct (run_call c self) as [self2|] eqn:Hc; simpl in Hrun;
        [|discriminate].
      destruct (run_call_frame _ _ _ Hc) as (Hb & Hs & He).
      destruct (IH _ Hrun) as (Hb' & Hs' & He'). split; [|split]; congruence. }
  destruct Hself as (<- & <- & <-). destruct Hframe as (Hb & Hs & He).
  unfold base. simpl. rewrite Hb. done.
Qed.

Lemma std_clamp_zero (v hi : Z) :
  (0 ≤ hi)%Z → std_clamp v 0 hi = Z.max 0 (Z.min v hi).
Proof.
  intros Hhi. unfold std_clamp.
  destruct (Z.ltb_spec v 0); [lia |].
  destruct (Z.ltb_spec hi v); lia.
Qed.

(** X4: for a sized base whose length [L] is a value of the difference
    type, [size] succeeds for all indices, also ones that break the
    constructor's precondition: it clamps each index into [0, L], so the
    count lies between 0 and [L], and it is 0 when [end_index_] is not above
    [start_index_]. *)
Theorem size_any_indices {R : range_type} (self : slice_view A R) :
  sized_range R = true →
  (0 < difference_bits R)%Z →
  (Z.of_nat (length (base_ self)) < 2 ^ (difference_bits R - 1))%Z →
  let L := Z.of_nat (length (base_ self)) in
  let clamped i := Z.max 0 (Z.min i L) in
  ∃ n, size self = Some (n, self) ∧
       n = Z.max 0 (clamped (end_index_ self) - clamped (start_index_ self)) ∧
       (0 ≤ n ≤ L)%Z ∧
       ((end_index_ self ≤ start_index_ self)%Z → n = 0%Z).
Proof.
  intros Hsized Hw HL L clamped.
  exists (Z.max 0 (clamped (end_index_ self) - clamped (start_index_ self))).
  assert (0 ≤ Z.max 0 (clamped (end_index_ self) - clamped (start_index_ self))
          ≤ L)%Z as Hn by (unfold clamped; lia).
  split; [|split; [done | split; [done | unfold clamped; lia]]].
  unfold size, ranges_ssize. rewrite Hsized. cbv zeta.
  rewrite wrap_signed_small by lia.
  rewrite !std_clamp_zero, std_max_max by lia.
  fold L. fold (clamped (end_index_ self)). fold (clamped (start_index_ self)).
  rewrite wrap_unsigned_small by lia. reflexivity.
Qed.









End properties.

(** *** Instances *)

Lemma query_writes_its_own_cache_only_witness :
  let self1 := @Build_slice_view Z std_list example_base 2 5 (Some 2) None in
  base_ self1 = base_ list_slice ∧
  start_index_ self1 = start_index_ list_slice ∧
  end_index_ self1 = end_index_ list_slice ∧
  end_ self1 = end_ list_slice.
Proof.
  apply (query_writes_its_own_cache_only list_slice _ query_begin 2).
  reflexivity.
Defined.

Lemma base_after_calls_witness :
  base lvalue (λ _, []) list_slice_populated
    = (example_base, list_slice_populated) ∧
  fst (base rvalue (λ _, []) list_slice_populated) = example_base ∧
  start_index_ list_slice_populated = 2%Z ∧
  end_index_ list_slice_populated = 5%Z.
Proof.
  apply (base_after_calls false example_base 2 5
           [call_begin; call_size; call_end; call_base] list_slice);
    reflexivity.
Defined.

Lemma size_any_indices_witness :
  let self := @Build_slice_view Z std_array [10; 11; 12; 13; 14]%Z 4 1 tt tt in
  ∃ n, size self = Some (n, self) ∧
       n = Z.max 0 (Z.max 0 (Z.min 1 5) - Z.max 0 (Z.min 4 5)) ∧
       (0 ≤ n ≤ 5)%Z ∧
       ((1 ≤ 4)%Z → n = 0%Z).
Proof.
  apply (size_any_indices
           (@Build_slice_view Z std_array [10; 11; 12; 13; 14]%Z 4 1 tt tt));
    reflexivity.
Defined.






End SliceViewQueries.

(** ** slice_view.hpp: [views::slice] *)
Module SliceAdaptor.
Import SliceView.

(** [slice_range_adaptor<DifferenceType>]: the two data members, values
    of the integral type [DifferenceType]. *)
Record slice_range_adaptor : Type := { start_ : Z; end_ : Z }.

(** [slice_fn::operator()(start, end)]: [slice_range_adaptor{start, end}],
    which is also the adaptor's constructor. *)
Definition slice_fn (start end' : Z) : slice_range_adaptor :=
  {| start_ := start; end_ := end' |}.

(** [static_cast<std::ranges::range_difference_t<R>>(x)]: the value of
    the signed difference type that is congruent to [x]. *)
Definition to_difference_type (R : range_type) (x : Z) : Z :=
  wrap_signed (difference_bits R) x.

(** [slice_range_adaptor::operator()(R&& r)], which [r | slice(start, end)]
    calls: [slice_view(r, static_cast<...>(start_), static_cast<...>(end_))]. *)
Definition adaptor_call {A : Type} (NDEBUG : bool) (R : range_type)
    (a : slice_range_adaptor) (r : list A) : constructed (slice_view A R) :=
  slice_view_ctor NDEBUG R r
    (to_difference_type R (start_ a)) (to_difference_type R (end_ a)).

Lemma wrap_signed_id (w x : Z) :
  (0 < w)%Z → (- 2 ^ (w - 1) ≤ x < 2 ^ (w - 1))%Z → wrap_signed w x = x.
Proof.
  intros Hw Hx. unfold wrap_signed.
  rewrite Z.mod_small; [lia |]. rewrite (pow2_double w Hw). lia.
Qed.

Lemma wrap_signed_high (w x : Z) :
  (0 < w)%Z → (2 ^ (w - 1) ≤ x < 2 ^ w)%Z → wrap_signed w x = (x - 2 ^ w)%Z.
Proof.
  intros Hw Hx. unfold wrap_signed.
  pose proof (pow2_double w Hw) as Hpow.
  replace (x + 2 ^ (w - 1))%Z with ((x - 2 ^ (w - 1)) + 1 * 2 ^ w)%Z by lia.
  rewrite Z.mod_add by lia. rewrite Z.mod_small by lia. lia.
Qed.

(** X9: applying the adaptor [slice(start, end)] to a range gives what the
    constructor gives for that range and the same indices, the assertion it
    stops at included, whenever both indices are values of the range's
    difference type. *)
Theorem adaptor_is_the_constructor {A : Type} (NDEBUG : bool) (R : range_type)
    (start end' : Z) (r : list A) :
  (0 < difference_bits R)%Z →
  (- 2 ^ (difference_bits R - 1) ≤ start < 2 ^ (difference_bits R - 1))%Z →
  (- 2 ^ (difference_bits R - 1) ≤ end' < 2 ^ (difference_bits R - 1))%Z →
  adaptor_call NDEBUG R (slice_fn start end') r
  = slice_view_ctor NDEBUG R r start end'.
Proof.
  intros Hw Hs He. unfold adaptor_call, to_difference_type. simpl.
  by rewrite !wrap_signed_id.
Qed.

(** X10: an index of an unsigned type as wide as the difference type whose
    value is [2^(w-1)] or more is converted to a negative index: with
    assertions enabled the adaptor stops at [assert(start >= 0)] for such a
    start, and at [assert(end >= 0)] for such an end after a start in
    range. *)
Theorem adaptor_unsigned_index_wraps {A : Type} (R : range_type)
    (start end' big : Z) (r : list A) :
  (0 < difference_bits R)%Z →
  (2 ^ (difference_bits R - 1) ≤ big < 2 ^ difference_bits R)%Z →
  (0 ≤ start < 2 ^ (difference_bits R - 1))%Z →
  to_difference_type R big = (big - 2 ^ difference_bits R)%Z ∧
  adaptor_call false R (slice_fn big end') r = assertion_failed start_ge_0 ∧
  adaptor_call false R (slice_fn start big) r = assertion_failed end_ge_0.
Proof.
  intros Hw Hbig Hs.
  pose proof (wrap_signed_high _ _ Hw Hbig) as Hwrap.
  split; [exact Hwrap |].
  unfold adaptor_call, to_difference_type, slice_view_ctor, assert_then. simpl.
  rewrite Hwrap, (wrap_signed_id _ start) by lia. rewrite !Z.geb_leb.
  split.
  - destruct (Z.leb_spec 0 (big - 2 ^ difference_bits R)); [lia | reflexivity].
  - destruct (Z.leb_spec 0 start); [|lia].
    destruct (Z.leb_spec 0 (big - 2 ^ difference_bits R)); [lia | reflexivity].
Qed.

Lemma adaptor_is_the_constructor_witness :
  adaptor_call false std_array (slice_fn 2 5) [0; 1; 2; 3; 4; 5]%Z
  = slice_view_ctor false std_array [0; 1; 2; 3; 4; 5]%Z 2 5.
Proof.
  apply (adaptor_is_the_constructor false std_array 2 5 [0; 1; 2; 3; 4; 5]%Z);
    [reflexivity | split; [discriminate | reflexivity]
    | split; [discriminate | reflexivity]].
Defined.

Lemma adaptor_unsigned_index_wraps_witness :
  to_difference_type std_array (2 ^ 64 - 1) = (-1)%Z ∧
  adaptor_call false std_array (slice_fn (2 ^ 64 - 1) 3) [0; 1; 2]%Z
    = assertion_failed start_ge_0 ∧
  adaptor_call false std_array (slice_fn 1 (2 ^ 64 - 1)) [0; 1; 2]%Z
    = assertion_failed end_ge_0.
Proof.
  apply (adaptor_unsigned_index_wraps std_array 1 3 (2 ^ 64 - 1) [0; 1; 2]%Z);
    [reflexivity | split; [discriminate | reflexivity]
    | split; [discriminate | reflexivity]].
Defined.

End SliceAdaptor.

(** ** non_propagating_cache.hpp: how the assignments compose *)
Module NonPropagatingCacheAlgebra.
Import NonPropagatingCache.

Section properties.
Context {T : Type}.

Abbreviation store := (gmap addr (non_propagating_cache T)).

Lemma reset_reset (c : non_propagating_cache T) : reset (reset c) = reset c.
Proof. reflexivity. Qed.

Lemma lookup_move_assign (σ : store) (this other a : addr) :
  move_assign this other σ !! a =
    if decide (a = this ∨ a = other) then reset <$> σ !! a else σ !! a.
Proof.
  unfold move_assign. rewrite !lookup_alter.
  repeat case_decide; subst; try done; try (exfalso; intuition congruence).
  by destruct (σ !! a).
Qed.

(** X11: move-assignment treats its two operands alike, so [a = move(b)]
    and [b = move(a)] leave the same store; doing either a second time, or
    copy-assigning between the two afterwards, changes nothing more; and
    no assignment creates or destroys a cache object. *)
Theorem assignments_compose (σ : store) (a b : addr) :
  move_assign a b σ = move_assign b a σ ∧
  move_assign a b (move_assign a b σ) = move_assign a b σ ∧
  copy_assign a b (move_assign a b σ) = move_assign a b σ ∧
  copy_assign a b (copy_assign a b σ) = copy_assign a b σ ∧
  dom (move_assign a b σ) = dom σ ∧
  dom (copy_assign a b σ) = dom σ.
Proof.
  repeat split.
  - apply map_eq. intros i. rewrite !lookup_move_assign.
    repeat case_decide; try done; exfalso; intuition congruence.
  - apply map_eq. intros i. rewrite !lookup_move_assign.
    case_decide; [|done]. by destruct (σ !! i).
  - unfold copy_assign. case_decide; [|done].
    apply map_eq. intros i. rewrite lookup_alter, !lookup_move_assign.
    repeat case_decide; subst; try done;
      try (exfalso; intuition congruence); by destruct (σ !! _).
  - unfold copy_assign. case_decide; [|done].
    apply map_eq. intros i. rewrite !lookup_alter.
    repeat case_decide; subst; try done; by destruct (σ !! _).
  - unfold move_assign. by rewrite !dom_alter_L.
  - unfold copy_assign. case_decide; [|done]. by rewrite dom_alter_L.
Qed.

End properties.

(** X12: no special member touches a cache object other than [*this] and
    [other]: every other object of the store is found as it was, and a
    constructor adds the object at [this] and no other. *)
Theorem special_members_touch_operands_only {T : Type}
    (σ : gmap addr (non_propagating_cache T)) (this other a : addr) :
  a ≠ this → a ≠ other →
  (copy_ctor this other σ !! a = σ !! a ∧
   move_ctor this other σ !! a = σ !! a ∧
   copy_assign this other σ !! a = σ !! a ∧
   move_assign this other σ !! a = σ !! a) ∧
  dom (copy_ctor this other σ) = {[this]} ∪ dom σ ∧
  dom (move_ctor this other σ) = {[this]} ∪ dom σ.
Proof.
  intros Hthis Hother. split; [by apply special_members_frame |].
  unfold copy_ctor, move_ctor. by rewrite dom_alter_L, dom_insert_L.
Qed.

Lemma special_members_touch_operands_only_witness :
  (copy_ctor 3%positive 1%positive example_store !! 2%positive
     = example_store !! 2%positive ∧
   move_ctor 3%positive 1%positive example_store !! 2%positive
     = example_store !! 2%positive ∧
   copy_assign 3%positive 1%positive example_store !! 2%positive
     = example_store !! 2%positive ∧
   move_assign 3%positive 1%positive example_store !! 2%positive
     = example_store !! 2%positive) ∧
  dom (copy_ctor 3%positive 1%positive example_store)
    = {[3%positive]} ∪ dom example_store ∧
  dom (move_ctor 3%positive 1%positive example_store)
    = {[3%positive]} ∪ dom example_store.
Proof.
  apply (special_members_touch_operands_only example_store
           3%positive 1%positive 2%positive); discriminate.
Defined.

End NonPropagatingCacheAlgebra.

(** ** type_traits.hpp *)
Module TypeTraits.

(** *** What the header takes from <type_traits>

    The types are the object types with their cv-qualifiers and the
    references to them (function types and [void] are left out). *)
Inductive reference_kind : Type :=
| not_reference
| lvalue_reference
| rvalue_reference.

(** A type: the unqualified object type [name], the qualifiers of the
    object type, and whether the type is that object type or a reference to
    it. A reference has no qualifiers of its own. *)
Record type : Type := {
  name : nat;
  const_ : bool;
  volatile_ : bool;
  reference : reference_kind
}.

Definition is_reference (t : type) : bool :=
  match reference t with not_reference => false | _ => true end.

(** [std::is_const_v], [std::is_volatile_v]: of the type itself, so false
    for every reference. *)
Definition is_const_v (t : type) : bool := negb (is_reference t) && const_ t.
Definition is_volatile_v (t : type) : bool := negb (is_reference t) && volatile_ t.

Definition is_lvalue_reference_v (t : type) : bool :=
  match reference t with lvalue_reference => true | _ => false end.
Definition is_rvalue_reference_v (t : type) : bool :=
  match reference t with rvalue_reference => true | _ => false end.

(** [std::add_const_t], [std::remove_const_t] and the two for [volatile]:
    a reference is left as it is. *)
Definition add_const_t (t : type) : type :=
  if is_reference t then t
  else {| name := name t; const_ := true; volatile_ := volatile_ t;
          reference := reference t |}.
Definition remove_const_t (t : type) : type :=
  if is_reference t then t
  else {| name := name t; const_ := false; volatile_ := volatile_ t;
          reference := reference t |}.
Definition add_volatile_t (t : type) : type :=
  if is_reference t then t
  else {| name := name t; const_ := const_ t; volatile_ := true;
          reference := reference t |}.
Definition remove_volatile_t (t : type) : type :=
  if is_reference t then t
  else {| name := name t; const_ := const_ t; volatile_ := false;
          reference := reference t |}.

(** [std::remove_reference_t], and [std::add_lvalue_reference_t] and
    [std::add_rvalue_reference_t] with reference collapsing. *)
Definition remove_reference_t (t : type) : type :=
  {| name := name t; const_ := const_ t; volatile_ := volatile_ t;
     reference := not_reference |}.
Definition add_lvalue_reference_t (t : type) : type :=
  {| name := name t; const_ := const_ t; volatile_ := volatile_ t;
     reference := lvalue_reference |}.
Definition add_rvalue_reference_t (t : type) : type :=
  {| name := name t; const_ := const_ t; volatile_ := volatile_ t;
     reference := match reference t with
                  | not_reference => rvalue_reference
                  | r => r
                  end |}.

(** *** The header *)

(** [apply_const_t<From, To>] *)
Definition apply_const_t (From To : type) : type :=
  if is_const_v From then add_const_t To else To.

(** [copy_const_t<From, To>] *)
Definition copy_const_t (From To : type) : type :=
  apply_const_t From (remove_const_t To).

(** [apply_volatile_t<From, To>] *)
Definition apply_volatile_t (From To : type) : type :=
  if is_volatile_v From then add_volatile_t To else To.

(** [copy_volatile_t<From, To>] *)
Definition copy_volatile_t (From To : type) : type :=
  apply_volatile_t From (remove_volatile_t To).

(** [apply_cv_t<From, To>] *)
Definition apply_cv_t (From To : type) : type :=
  apply_const_t From (apply_volatile_t From To).

(** [copy_cv_t<From, To>] *)
Definition copy_cv_t (From To : type) : type :=
  copy_const_t From (copy_volatile_t From To).

(** [copy_reference_t<From, To>] *)
Definition copy_reference_t (From To : type) : type :=
  let is_lvalue := is_lvalue_reference_v From in
  let is_rvalue := is_rvalue_reference_v From in
  let base_to := remove_reference_t To in
  if is_lvalue then add_lvalue_reference_t base_to
  else if is_rvalue then add_rvalue_reference_t base_to
  else base_to.

(** [copy_cvref_t<From, To>] *)
Definition copy_cvref_t (From To : type) : type :=
  copy_reference_t From
    (copy_cv_t (remove_reference_t From) (remove_reference_t To)).

(** [like_t<From, To>] *)
Definition like_t (From To : type) : type :=
  copy_reference_t From
    (copy_cv_t (remove_reference_t From) (remove_reference_t To)).

(** *** Properties *)

(** X14: [copy_cvref_t<From, To>] and [like_t<From, To>] name the
    unqualified type of [To] with the const, the volatile and the reference
    of [From], whatever qualifiers and reference [To] had; applying either
    again with the same [From] changes nothing. *)
Theorem copy_cvref_takes_all_from (From To : type) :
  copy_cvref_t From To =
    {| name := name To; const_ := const_ From; volatile_ := volatile_ From;
       reference := reference From |} ∧
  like_t From To = copy_cvref_t From To ∧
  copy_cvref_t From (copy_cvref_t From To) = copy_cvref_t From To.
Proof.
  destruct From as [nf [] [] []], To as [nt [] [] []]; repeat split.
Qed.

(** X15: the const and volatile helpers look at the types themselves and
    not through references. If [To] is a reference, each of them returns
    [To] as it is. If [From] is a reference, even one to a const volatile
    type, it counts as unqualified: the [apply_] helpers return [To] as it
    is and the [copy_] helpers only strip the qualifiers of [To]. *)
Theorem cv_helpers_ignore_references (From To : type) :
  (is_reference To = true →
   apply_const_t From To = To ∧ copy_const_t From To = To ∧
   apply_volatile_t From To = To ∧ copy_volatile_t From To = To ∧
   apply_cv_t From To = To ∧ copy_cv_t From To = To) ∧
  (is_reference From = true →
   apply_const_t From To = To ∧
   apply_volatile_t From To = To ∧
   apply_cv_t From To = To ∧
   copy_const_t From To = remove_const_t To ∧
   copy_volatile_t From To = remove_volatile_t To ∧
   copy_cv_t From To = remove_const_t (remove_volatile_t To)).
Proof.
  destruct From as [nf [] [] []], To as [nt [] [] []];
    split; intros H; try discriminate H; repeat split.
Qed.

(** X16: between two types that are not references, [copy_cv_t] gives
    [To] exactly the qualifiers of [From], while [apply_cv_t] adds those of
    [From] to the ones [To] has and removes none. *)
Theorem copy_cv_replaces_apply_cv_adds (From To : type) :
  is_reference From = false → is_reference To = false →
  copy_cv_t From To =
    {| name := name To; const_ := const_ From; volatile_ := volatile_ From;
       reference := not_reference |} ∧
  apply_cv_t From To =
    {| name := name To; const_ := const_ From || const_ To;
       volatile_ := volatile_ From || volatile_ To;
       reference := not_reference |}.
Proof.
  destruct From as [nf [] [] []], To as [nt [] [] []];
    intros H1 H2; try discriminate H1; try discriminate H2; repeat split.
Qed.

(** [const int&] and [volatile long]. *)
Definition const_int_ref : type :=
  {| name := 0; const_ := true; volatile_ := false;
     reference := lvalue_reference |}.
Definition volatile_long : type :=
  {| name := 1; const_ := false; volatile_ := true;
     reference := not_reference |}.
Definition const_int : type :=
  {| name := 0; const_ := true; volatile_ := false;
     reference := not_reference |}.

Lemma cv_helpers_ignore_references_witness :
  (apply_const_t const_int const_int_ref = const_int_ref ∧
   copy_cv_t volatile_long const_int_ref = const_int_ref) ∧
  (apply_cv_t const_int_ref volatile_long = volatile_long ∧
   copy_cv_t const_int_ref volatile_long
     = {| name := 1; const_ := false; volatile_ := false;
          reference := not_reference |}).
Proof.
  split.
  - destruct (proj1 (cv_helpers_ignore_references const_int const_int_ref)
                eq_refl) as (H1 & _).
    destruct (proj1 (cv_helpers_ignore_references volatile_long const_int_ref)
                eq_refl) as (_ & _ & _ & _ & _ & H2).
    split; [exact H1 | exact H2].
  - destruct (proj2 (cv_helpers_ignore_references const_int_ref volatile_long)
                eq_refl) as (_ & _ & H1 & _ & _ & H2).
    split; [exact H1 | exact H2].
Defined.

Lemma copy_cv_replaces_apply_cv_adds_witness :
  copy_cv_t const_int volatile_long =
    {| name := 1; const_ := true; volatile_ := false;
       reference := not_reference |} ∧
  apply_cv_t const_int volatile_long =
    {| name := 1; const_ := true; volatile_ := true;
       reference := not_reference |}.
Proof.
  apply (copy_cv_replaces_apply_cv_adds const_int volatile_long); reflexivity.
Defined.

End TypeTraits.
